(** * Event-loop visualizer: the step player

    A model of the [JsRuntimeVisualizer] component: its seven [useState]
    cells, the [steps] table of closures built inside [useEffect], the
    timer callback that replays the table, and the two button handlers.
    The repository holds two variants of the component which differ in
    the [steps] table (13 closures against 12); the handlers are the
    same text in both. *)

From stdpp Require Import base list strings gmap.

Local Open Scope string_scope.
Local Open Scope nat_scope.
Local Open Scope list_scope.

(** ** Data *)

(** [type LookingAt = "stack" | "microtask" | "callback"] *)
Inductive LookingAt : Type := stack | microtask | callback.

#[global] Instance LookingAt_eq_dec : EqDecision LookingAt.
Proof. solve_decision. Defined.

(** The [useState] cells of the component, in declaration order.  The
    step counter only ever holds 0 or a successor, so it is a [nat]. *)
Record Visualizer : Type := mkVisualizer {
  isPlaying : bool;
  step : nat;
  callStack : list string;
  microtaskQueue : list string;
  callbackQueue : list string;
  consoleOutput : list string;
  lookingAt : LookingAt
}.

(** The initial values handed to [useState]. *)
Definition initialState : Visualizer :=
  mkVisualizer false 0 [] [] [] [] stack.

(** The part of the component the specification calls the Execution
    State: call stack, microtask queue, callback queue, console output
    and focus indicator. *)
Definition ExecutionState : Type :=
  (list string * list string * list string * list string * LookingAt)%type.

Definition execution_state (s : Visualizer) : ExecutionState :=
  (callStack s, microtaskQueue s, callbackQueue s, consoleOutput s, lookingAt s).

(** ** Setters *)

(** React's [SetStateAction<S> = S | ((prev: S) => S)]. *)
Inductive SetStateAction (A : Type) : Type :=
| Value (v : A)
| Updater (f : A → A).
Arguments Value {A} v.
Arguments Updater {A} f.

Definition resolve {A : Type} (a : SetStateAction A) (prev : A) : A :=
  match a with
  | Value v => v
  | Updater f => f prev
  end.

(** One call of one of the seven setters. *)
Inductive SetterCall : Type :=
| setIsPlaying (a : SetStateAction bool)
| setStep (a : SetStateAction nat)
| setCallStack (a : SetStateAction (list string))
| setMicrotaskQueue (a : SetStateAction (list string))
| setCallbackQueue (a : SetStateAction (list string))
| setConsoleOutput (a : SetStateAction (list string))
| setLookingAt (a : SetStateAction LookingAt).

(** Each setter replaces its own cell and leaves the six others alone. *)
Definition dispatch (c : SetterCall) (s : Visualizer) : Visualizer :=
  match c with
  | setIsPlaying a =>
      mkVisualizer (resolve a (isPlaying s)) (step s) (callStack s)
        (microtaskQueue s) (callbackQueue s) (consoleOutput s) (lookingAt s)
  | setStep a =>
      mkVisualizer (isPlaying s) (resolve a (step s)) (callStack s)
        (microtaskQueue s) (callbackQueue s) (consoleOutput s) (lookingAt s)
  | setCallStack a =>
      mkVisualizer (isPlaying s) (step s) (resolve a (callStack s))
        (microtaskQueue s) (callbackQueue s) (consoleOutput s) (lookingAt s)
  | setMicrotaskQueue a =>
      mkVisualizer (isPlaying s) (step s) (callStack s)
        (resolve a (microtaskQueue s)) (callbackQueue s) (consoleOutput s)
        (lookingAt s)
  | setCallbackQueue a =>
      mkVisualizer (isPlaying s) (step s) (callStack s)
        (microtaskQueue s) (resolve a (callbackQueue s)) (consoleOutput s)
        (lookingAt s)
  | setConsoleOutput a =>
      mkVisualizer (isPlaying s) (step s) (callStack s)
        (microtaskQueue s) (callbackQueue s) (resolve a (consoleOutput s))
        (lookingAt s)
  | setLookingAt a =>
      mkVisualizer (isPlaying s) (step s) (callStack s)
        (microtaskQueue s) (callbackQueue s) (consoleOutput s)
        (resolve a (lookingAt s))
  end.

(** The body of a [() => void] closure: its setter calls, in order.
    React queues the updates of one handler and applies them in call
    order, which is what the left fold does. *)
Definition Closure : Type := list SetterCall.

Definition invoke (body : Closure) (s : Visualizer) : Visualizer :=
  foldl (λ acc c, dispatch c acc) s body.

(** ** Frame labels *)

(** The double-quote character, code 34. *)
Definition dq : string :=
  Eval cbv in String (Ascii.ascii_of_nat 34) EmptyString.

Definition GlobalExecutionContext : string := "Global Execution Context".
Definition logStart : string :=
  Eval cbv in "console.log(" +:+ dq +:+ "Start" +:+ dq +:+ ")".
Definition logEnd : string :=
  Eval cbv in "console.log(" +:+ dq +:+ "End" +:+ dq +:+ ")".
Definition PromiseCallback : string := "Promise callback".
Definition setTimeoutCallback : string := "setTimeout callback".

(** Queue entries of the first variant. *)
Definition timeoutEntryA : string :=
  Eval cbv in "() => console.log(" +:+ dq +:+ "Timeout" +:+ dq +:+ ")".
Definition promiseEntryA : string :=
  Eval cbv in "() => console.log(" +:+ dq +:+ "Promise" +:+ dq +:+ ")".

(** Queue entries of the second variant. *)
Definition timeoutEntryB : string :=
  Eval cbv in "setTimeout(() => console.log(" +:+ dq +:+ "Timeout" +:+ dq +:+ "))".
Definition promiseEntryB : string :=
  Eval cbv in "Promise.then(() => console.log(" +:+ dq +:+ "Promise" +:+ dq +:+ "))".

(** [(prev) => [...prev, x]] *)
Definition spread_append (x : string) : SetStateAction (list string) :=
  Updater (λ prev, prev ++ [x]).

(** ** The two step tables *)

Inductive Version : Type := VariantA | VariantB.

(** [steps] of the first variant (13 closures). *)
Definition stepsA : list Closure := [
  (* Step 0: Initial state *)
  [ setCallStack (Value [GlobalExecutionContext]);
    setLookingAt (Value stack) ];
  (* Step 1: console.log("Start") *)
  [ setCallStack (Value [logStart; GlobalExecutionContext]);
    setConsoleOutput (spread_append "Start");
    setLookingAt (Value stack) ];
  (* Step 2: Pop console.log("Start") *)
  [ setCallStack (Value [GlobalExecutionContext]);
    setLookingAt (Value stack) ];
  (* Step 3: setTimeout callback added to callback queue *)
  [ setCallbackQueue (spread_append timeoutEntryA);
    setLookingAt (Value callback) ];
  (* Step 4: Promise callback added to microtask queue *)
  [ setMicrotaskQueue (spread_append promiseEntryA);
    setLookingAt (Value microtask) ];
  (* Step 5: console.log("End") *)
  [ setCallStack (Value [logEnd; GlobalExecutionContext]);
    setConsoleOutput (spread_append "End");
    setLookingAt (Value stack) ];
  (* Step 6: Pop console.log("End") *)
  [ setCallStack (Value [GlobalExecutionContext]) ];
  (* Step 7: Execute Promise (microtask) *)
  [ setCallStack (Value []);
    setLookingAt (Value microtask) ];
  (* Step 7: Execute Promise (microtask) *)
  [ setCallStack (Value [PromiseCallback]);
    setMicrotaskQueue (Value []);
    setConsoleOutput (spread_append "Promise");
    setLookingAt (Value stack) ];
  (* Step 8: Pop Promise callback *)
  [ setCallStack (Value []);
    setLookingAt (Value callback) ];
  (* Step 9: Execute setTimeout callback *)
  [ setCallStack (Value [setTimeoutCallback]);
    setCallbackQueue (Value []);
    setConsoleOutput (spread_append "Timeout");
    setLookingAt (Value stack) ];
  (* Step 10: Pop setTimeout callback *)
  [ setCallStack (Value []);
    setLookingAt (Value stack) ];
  (* Step 11: Pop Global Execution Context *)
  [ setCallStack (Value []);
    setLookingAt (Value stack) ]
].

(** [steps] of the second variant (12 closures). *)
Definition stepsB : list Closure := [
  (* Step 0: Initial state *)
  [ setCallStack (Value [GlobalExecutionContext]);
    setLookingAt (Value stack) ];
  (* Step 1: console.log("Start") *)
  [ setCallStack (Value [logStart; GlobalExecutionContext]);
    setConsoleOutput (spread_append "Start");
    setLookingAt (Value stack) ];
  (* Step 2: Pop console.log("Start") *)
  [ setCallStack (Value [GlobalExecutionContext]);
    setLookingAt (Value stack) ];
  (* Step 3: setTimeout callback added to callback queue *)
  [ setCallbackQueue (spread_append timeoutEntryB);
    setLookingAt (Value callback) ];
  (* Step 4: Promise callback added to microtask queue *)
  [ setMicrotaskQueue (spread_append promiseEntryB);
    setLookingAt (Value microtask) ];
  (* Step 5: console.log("End") *)
  [ setCallStack (Value [logEnd; GlobalExecutionContext]);
    setConsoleOutput (spread_append "End");
    setLookingAt (Value stack) ];
  (* Step 6: Pop console.log("End") *)
  [ setCallStack (Value [GlobalExecutionContext]);
    setLookingAt (Value microtask) ];
  (* Step 7: Execute Promise (microtask) *)
  [ setCallStack (Value [PromiseCallback; GlobalExecutionContext]);
    setMicrotaskQueue (Value []);
    setConsoleOutput (spread_append "Promise");
    setLookingAt (Value stack) ];
  (* Step 8: Pop Promise callback *)
  [ setCallStack (Value [GlobalExecutionContext]);
    setLookingAt (Value callback) ];
  (* Step 9: Execute setTimeout callback *)
  [ setCallStack (Value [setTimeoutCallback; GlobalExecutionContext]);
    setCallbackQueue (Value []);
    setConsoleOutput (spread_append "Timeout");
    setLookingAt (Value stack) ];
  (* Step 10: Pop setTimeout callback *)
  [ setCallStack (Value [GlobalExecutionContext]);
    setLookingAt (Value stack) ];
  (* Step 11: Pop Global Execution Context *)
  [ setCallStack (Value []);
    setLookingAt (Value stack) ]
].

Definition steps (v : Version) : list Closure :=
  match v with
  | VariantA => stepsA
  | VariantB => stepsB
  end.

(** ** Handlers *)

(** [resetState], the [onClick] of the second button. *)
Definition resetState : Closure :=
  [ setStep (Value 0);
    setCallStack (Value []);
    setMicrotaskQueue (Value []);
    setCallbackQueue (Value []);
    setConsoleOutput (Value []);
    setIsPlaying (Value false);
    setLookingAt (Value stack) ].

(** [() => setIsPlaying(!isPlaying)], the [onClick] of the first button;
    [isPlaying] is the value of the render the handler belongs to. *)
Definition togglePlaying (s : Visualizer) : Closure :=
  [ setIsPlaying (Value (negb (isPlaying s))) ].

(** The callback handed to [setTimeout] inside the effect.  [step] is
    the value captured by the effect, which re-runs whenever [step] or
    [isPlaying] changes, so it is the current one.  The lookup cannot
    miss under the length test. *)
Definition timeout_callback (v : Version) (s : Visualizer) : Visualizer :=
  if decide (step s < length (steps v)) then
    match steps v !! step s with
    | Some body => dispatch (setStep (Value (step s + 1))) (invoke body s)
    | None => s
    end
  else dispatch (setIsPlaying (Value false)) s.

(** The effect: [if (!isPlaying) return;] schedules nothing, otherwise
    one timer is pending, carrying the callback above. *)
Definition pending_timer (v : Version) (s : Visualizer)
  : option (Visualizer → Visualizer) :=
  if isPlaying s then Some (timeout_callback v) else None.

(** What can happen to the component. *)
Inductive Event : Type := TimerFires | ClickPlayPause | ClickReset.

#[global] Instance Event_eq_dec : EqDecision Event.
Proof. solve_decision. Defined.

Definition handle (v : Version) (e : Event) (s : Visualizer) : Visualizer :=
  match e with
  | TimerFires =>
      match pending_timer v s with
      | Some cb => cb s
      | None => s
      end
  | ClickPlayPause => invoke (togglePlaying s) s
  | ClickReset => invoke resetState s
  end.

(** A trace of events, oldest first. *)
Definition run (v : Version) (tr : list Event) (s : Visualizer) : Visualizer :=
  foldl (λ acc e, handle v e acc) s tr.

(** [n] consecutive timer ticks. *)
Definition ticks (v : Version) (n : nat) (s : Visualizer) : Visualizer :=
  run v (replicate n TimerFires) s.

(** The component just after the user pressed play on a fresh page. *)
Definition started (v : Version) : Visualizer :=
  handle v ClickPlayPause initialState.

(** The transitions at indices [0 .. i-1], applied in order, once each. *)
Definition replay (v : Version) (i : nat) (s : Visualizer) : Visualizer :=
  foldl (λ acc body, invoke body acc) s (take i (steps v)).

(** ** The tabulated states

    The specification speaks of the i-th tabulated state, obtained by
    direct construction.  The tables below follow those words: entry [i]
    is the Execution State shown once the closures [0 .. i-1] have run,
    written out cell by cell from the literals of the [steps] table, with
    no reference to [invoke] or [replay].  They are compared with the
    replay of the source's table further down. *)

Definition tabulatedA : list ExecutionState := [
  ([], [], [], [], stack);
  ([GlobalExecutionContext], [], [], [], stack);
  ([logStart; GlobalExecutionContext], [], [], ["Start"], stack);
  ([GlobalExecutionContext], [], [], ["Start"], stack);
  ([GlobalExecutionContext], [], [timeoutEntryA], ["Start"], callback);
  ([GlobalExecutionContext], [promiseEntryA], [timeoutEntryA], ["Start"],
   microtask);
  ([logEnd; GlobalExecutionContext], [promiseEntryA], [timeoutEntryA],
   ["Start"; "End"], stack);
  ([GlobalExecutionContext], [promiseEntryA], [timeoutEntryA],
   ["Start"; "End"], stack);
  ([], [promiseEntryA], [timeoutEntryA], ["Start"; "End"], microtask);
  ([PromiseCallback], [], [timeoutEntryA], ["Start"; "End"; "Promise"],
   stack);
  ([], [], [timeoutEntryA], ["Start"; "End"; "Promise"], callback);
  ([setTimeoutCallback], [], [], ["Start"; "End"; "Promise"; "Timeout"],
   stack);
  ([], [], [], ["Start"; "End"; "Promise"; "Timeout"], stack);
  ([], [], [], ["Start"; "End"; "Promise"; "Timeout"], stack)
].

Definition tabulatedB : list ExecutionState := [
  ([], [], [], [], stack);
  ([GlobalExecutionContext], [], [], [], stack);
  ([logStart; GlobalExecutionContext], [], [], ["Start"], stack);
  ([GlobalExecutionContext], [], [], ["Start"], stack);
  ([GlobalExecutionContext], [], [timeoutEntryB], ["Start"], callback);
  ([GlobalExecutionContext], [promiseEntryB], [timeoutEntryB], ["Start"],
   microtask);
  ([logEnd; GlobalExecutionContext], [promiseEntryB], [timeoutEntryB],
   ["Start"; "End"], stack);
  ([GlobalExecutionContext], [promiseEntryB], [timeoutEntryB],
   ["Start"; "End"], microtask);
  ([PromiseCallback; GlobalExecutionContext], [], [timeoutEntryB],
   ["Start"; "End"; "Promise"], stack);
  ([GlobalExecutionContext], [], [timeoutEntryB],
   ["Start"; "End"; "Promise"], callback);
  ([setTimeoutCallback; GlobalExecutionContext], [], [],
   ["Start"; "End"; "Promise"; "Timeout"], stack);
  ([GlobalExecutionContext], [], [],
   ["Start"; "End"; "Promise"; "Timeout"], stack);
  ([], [], [], ["Start"; "End"; "Promise"; "Timeout"], stack)
].

Definition tabulated (v : Version) : list ExecutionState :=
  match v with
  | VariantA => tabulatedA
  | VariantB => tabulatedB
  end.

(** ** Cells

    A uniform view of the seven cells, used to say which cells a closure
    writes and that a setter never looks at a cell other than its own. *)

Inductive Cell : Type :=
| IsPlaying | Step | CallStack | MicrotaskQueue | CallbackQueue
| ConsoleOutput | Focus.

#[global] Instance Cell_eq_dec : EqDecision Cell.
Proof. solve_decision. Defined.

Definition cell_type (x : Cell) : Type :=
  match x with
  | IsPlaying => bool
  | Step => nat
  | CallStack | MicrotaskQueue | CallbackQueue | ConsoleOutput => list string
  | Focus => LookingAt
  end.

Definition read (x : Cell) : Visualizer → cell_type x :=
  match x as x0 return Visualizer → cell_type x0 with
  | IsPlaying => isPlaying
  | Step => step
  | CallStack => callStack
  | MicrotaskQueue => microtaskQueue
  | CallbackQueue => callbackQueue
  | ConsoleOutput => consoleOutput
  | Focus => lookingAt
  end.

(** The cell a setter call writes. *)
Definition target (c : SetterCall) : Cell :=
  match c with
  | setIsPlaying _ => IsPlaying
  | setStep _ => Step
  | setCallStack _ => CallStack
  | setMicrotaskQueue _ => MicrotaskQueue
  | setCallbackQueue _ => CallbackQueue
  | setConsoleOutput _ => ConsoleOutput
  | setLookingAt _ => Focus
  end.

(** The cells a closure writes, one entry per setter call. *)
Definition written (body : Closure) : list Cell := target <$> body.

(** The claim that a table is purely positional: whatever two states a
    closure of the table is run from, every cell it writes ends up with
    the same value in both. *)
Definition purely_positional (table : list Closure) : Prop :=
  ∀ (i : nat) (body : Closure), table !! i = Some body →
  ∀ (x : Cell), x ∈ written body →
  ∀ s1 s2 : Visualizer, read x (invoke body s1) = read x (invoke body s2).

(** No event of the trace is a click on the reset button. *)
Definition reset_free (tr : list Event) : Prop := ClickReset ∉ tr.

(** States the component can be in: the fresh page, and whatever an
    event leads to from there. *)
Inductive reachable (v : Version) : Visualizer → Prop :=
| reachable_initial : reachable v initialState
| reachable_handle (e : Event) (s : Visualizer) :
    reachable v s → reachable v (handle v e s).

(** ** Sample states

    The first variant at the end of its table with the timer still
    pending; the second variant after five ticks. *)

Definition finishedA : Visualizer :=
  mkVisualizer true 13 [] [] [] ["Start"; "End"; "Promise"; "Timeout"] stack.

Definition midwayB : Visualizer :=
  mkVisualizer true 5 [GlobalExecutionContext] [promiseEntryB] [timeoutEntryB]
    ["Start"] microtask.

(** The closure at index 1 of both tables, the one that logs "Start". *)
Definition logStartStep : Closure :=
  [ setCallStack (Value [logStart; GlobalExecutionContext]);
    setConsoleOutput (spread_append "Start");
    setLookingAt (Value stack) ].

(** ** What the component renders

    The data-dependent part of the JSX: the description line, the call
    stack panel, the two queue panels.  Class names that do not depend
    on the state are left in the source. *)

(** [stepDescriptions] of the first variant. *)
Definition stepDescriptionsA : list string := [
  "Ready to start code";
  "Global Execution Context is created and pushed to the Call Stack";
  "console.log('Start') is pushed to the Call Stack";
  "console.log('Start') is popped off the Call Stack after execution";
  "setTimeout is processed and its callback is sent to Browser APIs";
  "Promise is processed and its callback is queued in Microtask Queue";
  "console.log('End') is pushed to the Call Stack";
  "console.log('End') is popped off the Call Stack after execution";
  "Global Execution Context is popped off the Call Stack";
  "Promise callback is pushed to Call Stack from Microtask Queue";
  "Promise callback is popped off the Call Stack after execution";
  "setTimeout callback is pushed to Call Stack from Callback Queue";
  "setTimeout callback is popped off the Call Stack after execution"
].

(** [stepDescriptions] of the second variant. *)
Definition stepDescriptionsB : list string := [
  "Ready to start code";
  "Global Execution Context is created and pushed to the Call Stack";
  "console.log('Start') is pushed to the Call Stack";
  "console.log('Start') is popped off the Call Stack after execution";
  "setTimeout is processed and its callback is sent to Browser APIs";
  "Promise is processed and its callback is queued in Microtask Queue";
  "console.log('End') is pushed to the Call Stack";
  "console.log('End') is popped off the Call Stack after execution";
  "Promise callback is pushed to Call Stack from Microtask Queue";
  "Promise callback is popped off the Call Stack after execution";
  "setTimeout callback is pushed to Call Stack from Callback Queue";
  "setTimeout callback is popped off the Call Stack after execution";
  "Global Execution Context is popped off the Call Stack - program complete"
].

Definition stepDescriptions (v : Version) : list string :=
  match v with
  | VariantA => stepDescriptionsA
  | VariantB => stepDescriptionsB
  end.

(** [a || b] where [a] is a string or [undefined]: a missing value and
    the empty string are the falsy cases. *)
Definition or_else (a : option string) (b : string) : string :=
  match a with
  | None => b
  | Some EmptyString => b
  | Some x => x
  end.

Definition visualizationComplete : string := "Visualization complete".

(** [{stepDescriptions[step] || "Visualization complete"}] *)
Definition description (v : Version) (s : Visualizer) : string :=
  or_else (stepDescriptions v !! step s) visualizationComplete.

(** [contextColors], the same object in both variants: its own
    properties.  Names inherited from [Object.prototype] are outside
    this map. *)
Definition contextColors : gmap string string :=
  list_to_map [
    (GlobalExecutionContext, "bg-indigo-900 border-indigo-500");
    (logStart, "bg-green-900 border-green-500");
    (logEnd, "bg-green-900 border-green-500");
    (PromiseCallback, "bg-purple-900 border-purple-500");
    (setTimeoutCallback, "bg-blue-900 border-blue-500")
  ].

Definition fallbackColor : string := "bg-gray-700 border-gray-400".

(** One frame of the call stack panel: the [key], the colour classes,
    whether the ["-mt-1"] class is present, the [translateY] offset in
    pixels, the [zIndex], the text, and whether the shadow strip below
    the frame is drawn. *)
Record FrameView : Type := mkFrameView {
  frameKey : nat;
  frameColor : string;
  frameOverlaps : bool;
  frameTranslateY : Z;
  frameZIndex : Z;
  frameLabel : string;
  frameShadow : bool
}.

Record StackView : Type := mkStackView {
  stackPlaceholder : bool;
  stackFrames : list FrameView
}.

(** [renderCallStack(items)].  [items.reverse()] reverses the array in
    place and returns it, so the [items.length] read inside the callback
    is the length of that same array. *)
Definition renderCallStack (items : list string) : StackView :=
  let reversed := rev items in
  mkStackView
    (bool_decide (length items = 0))
    (imap (λ index item,
             mkFrameView
               index
               (or_else (contextColors !! item) fallbackColor)
               (bool_decide (0 < index))
               (- Z.of_nat index * 2)%Z
               (Z.of_nat (length reversed) - Z.of_nat index)%Z
               item
               (bool_decide (Z.of_nat index < Z.of_nat (length reversed) - 1)%Z))
          reversed).

(** [renderCallStack(callStack.slice().reverse())]: the copy made by
    [slice] is what gets reversed, the cell itself is not touched. *)
Definition callStackView (s : Visualizer) : StackView :=
  renderCallStack (rev (callStack s)).

(** One queue panel: title, background class, whether the highlighted
    border is on, whether the "Queue Empty" text is shown, and the
    entries with their keys. *)
Record QueueView : Type := mkQueueView {
  queueTitle : string;
  queueBackground : string;
  queueActive : bool;
  queuePlaceholder : bool;
  queueItems : list (nat * string)
}.

(** [renderQueue(title, items, bgColor, isActive)] *)
Definition renderQueue (title : string) (items : list string)
    (bgColor : string) (isActive : bool) : QueueView :=
  mkQueueView title bgColor isActive
    (bool_decide (length items = 0))
    (imap (λ index item, (index, item)) items).

Definition microtaskTitle (v : Version) : string :=
  match v with
  | VariantA => "Microtask Queue (↑ Priority)"
  | VariantB => "Microtask Queue (Higher Priority)"
  end.

Definition microtaskQueueView (v : Version) (s : Visualizer) : QueueView :=
  renderQueue (microtaskTitle v) (microtaskQueue s) "bg-gray-800"
    (bool_decide (lookingAt s = microtask)).

Definition callbackQueueView (s : Visualizer) : QueueView :=
  renderQueue "Callback Queue" (callbackQueue s) "bg-gray-800"
    (bool_decide (lookingAt s = callback)).

(** The output of the example program, in the order it prints. *)
Definition programOutput : list string :=
  ["Start"; "End"; "Promise"; "Timeout"].

(** A finished replay that has stopped by itself (first variant). *)
Definition stoppedA : Visualizer :=
  mkVisualizer false 13 [] [] [] ["Start"; "End"; "Promise"; "Timeout"] stack.

(** The frame is an own key of [contextColors] whose value is a
    non-empty string other than the fallback classes. *)
Definition has_own_color (frame : string) : bool :=
  match contextColors !! frame with
  | Some classes =>
      bool_decide (classes ≠ EmptyString ∧ classes ≠ fallbackColor)
  | None => false
  end.

(** From one call stack to the next: nothing moved, one frame was
    pushed on top, or the top frame was popped. *)
Definition stack_move (before after : list string) : Prop :=
  after = before
  ∨ (∃ frame : string, after = frame :: before)
  ∨ (∃ frame : string, before = frame :: after).

(** * Properties *)

(** ** Setters and closures, cell by cell *)

Lemma visualizer_ext (s1 s2 : Visualizer) :
  (∀ x : Cell, read x s1 = read x s2) → s1 = s2.
Proof.
  intros H. destruct s1, s2.
  pose proof (H IsPlaying). pose proof (H Step). pose proof (H CallStack).
  pose proof (H MicrotaskQueue). pose proof (H CallbackQueue).
  pose proof (H ConsoleOutput). pose proof (H Focus).
  simpl in *. congruence.
Qed.

Lemma dispatch_other (x : Cell) (c : SetterCall) (s : Visualizer) :
  target c ≠ x → read x (dispatch c s) = read x s.
Proof. destruct c, x; simpl; intros Hne; congruence. Qed.

Lemma dispatch_target (c : SetterCall) (s1 s2 : Visualizer) (x : Cell) :
  read x s1 = read x s2 → read x (dispatch c s1) = read x (dispatch c s2).
Proof. destruct c, x; simpl; intros Heq; congruence. Qed.

Lemma invoke_cons (c : SetterCall) (body : Closure) (s : Visualizer) :
  invoke (c :: body) s = invoke body (dispatch c s).
Proof. reflexivity. Qed.

Lemma invoke_other (x : Cell) (body : Closure) (s : Visualizer) :
  x ∉ written body → read x (invoke body s) = read x s.
Proof.
  revert s. induction body as [|c body IH]; intros s Hx; [done|].
  rewrite invoke_cons. unfold written in Hx. rewrite fmap_cons in Hx.
  apply not_elem_of_cons in Hx as [Hc Hbody].
  rewrite IH by exact Hbody. apply dispatch_other. congruence.
Qed.

Lemma invoke_local (x : Cell) (body : Closure) (s1 s2 : Visualizer) :
  read x s1 = read x s2 → read x (invoke body s1) = read x (invoke body s2).
Proof.
  revert s1 s2. induction body as [|c body IH]; intros s1 s2 Heq; [done|].
  rewrite !invoke_cons. apply IH, dispatch_target, Heq.
Qed.

Lemma execution_state_read (s1 s2 : Visualizer) :
  (∀ x : Cell, x ≠ IsPlaying → x ≠ Step → read x s1 = read x s2) →
  execution_state s1 = execution_state s2.
Proof.
  intros H. unfold execution_state.
  pose proof (H CallStack) as H1. pose proof (H MicrotaskQueue) as H2.
  pose proof (H CallbackQueue) as H3. pose proof (H ConsoleOutput) as H4.
  pose proof (H Focus) as H5. simpl in *.
  rewrite H1, H2, H3, H4, H5 by discriminate. reflexivity.
Qed.

Lemma read_execution_state (s1 s2 : Visualizer) (x : Cell) :
  execution_state s1 = execution_state s2 →
  x ≠ IsPlaying → x ≠ Step → read x s1 = read x s2.
Proof.
  unfold execution_state. intros Heq Hp Hs.
  destruct x; simpl; congruence.
Qed.

(** A closure's effect on the Execution State is a function of the
    Execution State it starts from. *)
Lemma invoke_execution_state (body : Closure) (s1 s2 : Visualizer) :
  execution_state s1 = execution_state s2 →
  execution_state (invoke body s1) = execution_state (invoke body s2).
Proof.
  intros Heq. apply execution_state_read. intros x Hp Hs.
  apply invoke_local. by apply read_execution_state.
Qed.

(** ** The step tables never touch [step] or [isPlaying] *)

Lemma steps_leave_player_cells (v : Version) (body : Closure) :
  body ∈ steps v → (IsPlaying ∉ written body) ∧ (Step ∉ written body).
Proof.
  revert body. apply Forall_forall.
  destruct v; simpl; unfold stepsA, stepsB;
    repeat (apply Forall_cons_2;
            [split; apply (bool_decide_unpack _); vm_compute; exact I|]);
    apply Forall_nil_2.
Qed.

Lemma closure_keeps_playing (v : Version) (body : Closure) (s : Visualizer) :
  body ∈ steps v → isPlaying (invoke body s) = isPlaying s.
Proof.
  intros Hin. apply (invoke_other IsPlaying).
  by apply (steps_leave_player_cells v).
Qed.

Lemma closure_keeps_step (v : Version) (body : Closure) (s : Visualizer) :
  body ∈ steps v → step (invoke body s) = step s.
Proof.
  intros Hin. apply (invoke_other Step).
  by apply (steps_leave_player_cells v).
Qed.

(** ** The timer callback *)

Lemma timeout_callback_in_range (v : Version) (s : Visualizer) (body : Closure) :
  steps v !! step s = Some body →
  timeout_callback v s = dispatch (setStep (Value (step s + 1))) (invoke body s).
Proof.
  intros Hbody. unfold timeout_callback.
  rewrite Hbody. apply lookup_lt_Some in Hbody.
  by rewrite decide_True.
Qed.

Lemma timeout_callback_finished (v : Version) (s : Visualizer) :
  length (steps v) ≤ step s →
  timeout_callback v s = dispatch (setIsPlaying (Value false)) s.
Proof.
  intros Hge. unfold timeout_callback. rewrite decide_False; [done|lia].
Qed.

Lemma tick_paused (v : Version) (s : Visualizer) :
  isPlaying s = false → handle v TimerFires s = s.
Proof. intros Hp. simpl. unfold pending_timer. by rewrite Hp. Qed.

Lemma tick_playing (v : Version) (s : Visualizer) :
  isPlaying s = true → handle v TimerFires s = timeout_callback v s.
Proof. intros Hp. simpl. unfold pending_timer. by rewrite Hp. Qed.

(** A tick past the end of the table changes neither the step counter
    nor the Execution State, playing or not. *)
Lemma tick_finished (v : Version) (s : Visualizer) :
  length (steps v) ≤ step s →
  step (handle v TimerFires s) = step s ∧
  execution_state (handle v TimerFires s) = execution_state s.
Proof.
  intros Hge. destruct (isPlaying s) eqn:Hp.
  - rewrite tick_playing, timeout_callback_finished by done. done.
  - rewrite tick_paused by done. done.
Qed.

Lemma toggle_frame (v : Version) (s : Visualizer) :
  step (handle v ClickPlayPause s) = step s ∧
  execution_state (handle v ClickPlayPause s) = execution_state s.
Proof. done. Qed.

(** ** Traces *)

Lemma run_cons (v : Version) (e : Event) (tr : list Event) (s : Visualizer) :
  run v (e :: tr) s = run v tr (handle v e s).
Proof. reflexivity. Qed.

Lemma run_app (v : Version) (tr1 tr2 : list Event) (s : Visualizer) :
  run v (tr1 ++ tr2) s = run v tr2 (run v tr1 s).
Proof. unfold run. apply foldl_app. Qed.

Lemma ticks_S (v : Version) (n : nat) (s : Visualizer) :
  ticks v (S n) s = ticks v n (handle v TimerFires s).
Proof. reflexivity. Qed.

Lemma ticks_add (v : Version) (n m : nat) (s : Visualizer) :
  ticks v (n + m) s = ticks v m (ticks v n s).
Proof. unfold ticks. by rewrite replicate_add, run_app. Qed.

Lemma ticks_reset_free (n : nat) : reset_free (replicate n TimerFires).
Proof.
  unfold reset_free. intros Hin. apply elem_of_replicate in Hin as [? _].
  discriminate.
Qed.

(** Past the end of the table, no trace without a reset moves the step
    counter or the Execution State. *)
Lemma run_finished (v : Version) (tr : list Event) (s : Visualizer) :
  length (steps v) ≤ step s → reset_free tr →
  step (run v tr s) = step s ∧
  execution_state (run v tr s) = execution_state s.
Proof.
  revert s. induction tr as [|e tr IH]; intros s Hge Hfree; [done|].
  unfold reset_free in Hfree. apply not_elem_of_cons in Hfree as [Hne Hfree].
  rewrite run_cons.
  assert (step (handle v e s) = step s ∧
          execution_state (handle v e s) = execution_state s) as [Hs He].
  { destruct e; [by apply tick_finished|by apply toggle_frame|done]. }
  destruct (IH (handle v e s)) as [IHs IHe]; [lia|done|].
  split; congruence.
Qed.

(** ** The player *)

(** C4.  When the timer callback runs with a step index that is not below
    the table length, it takes the [else] branch: the player stops playing
    (so the effect schedules no further timer) and the step index, the
    call stack, both queues, the console output and the focus indicator
    are left as they were.  The callback returns a state; there is no
    error path. *)
Theorem out_of_range_signals_completion (v : Version) (s : Visualizer) :
  length (steps v) ≤ step s →
  isPlaying (timeout_callback v s) = false ∧
  pending_timer v (timeout_callback v s) = None ∧
  step (timeout_callback v s) = step s ∧
  callStack (timeout_callback v s) = callStack s ∧
  microtaskQueue (timeout_callback v s) = microtaskQueue s ∧
  callbackQueue (timeout_callback v s) = callbackQueue s ∧
  consoleOutput (timeout_callback v s) = consoleOutput s ∧
  lookingAt (timeout_callback v s) = lookingAt s.
Proof.
  intros Hge. rewrite timeout_callback_finished by exact Hge.
  unfold pending_timer. simpl. repeat split.
Qed.

Lemma out_of_range_signals_completion_witness :
  length (steps VariantA) ≤ step finishedA ∧
  isPlaying (timeout_callback VariantA finishedA) = false ∧
  pending_timer VariantA (timeout_callback VariantA finishedA) = None ∧
  step (timeout_callback VariantA finishedA) = step finishedA ∧
  callStack (timeout_callback VariantA finishedA) = callStack finishedA ∧
  microtaskQueue (timeout_callback VariantA finishedA)
    = microtaskQueue finishedA ∧
  callbackQueue (timeout_callback VariantA finishedA)
    = callbackQueue finishedA ∧
  consoleOutput (timeout_callback VariantA finishedA)
    = consoleOutput finishedA ∧
  lookingAt (timeout_callback VariantA finishedA) = lookingAt finishedA.
Proof.
  split; [vm_compute; lia|].
  apply (out_of_range_signals_completion VariantA finishedA).
  vm_compute; lia.
Defined.

(** C5.  Once the step index has reached the table length, a tick, and
    so any number of ticks, leaves the call stack, the microtask queue,
    the callback queue, the console output, the focus indicator and the
    step index exactly as they were. *)
Theorem terminal_state_is_stable (v : Version) (s : Visualizer) :
  length (steps v) ≤ step s →
  (execution_state (handle v TimerFires s) = execution_state s ∧
   step (handle v TimerFires s) = step s) ∧
  ∀ n : nat,
    execution_state (ticks v n s) = execution_state s ∧
    step (ticks v n s) = step s.
Proof.
  intros Hge. split.
  - destruct (tick_finished v s Hge). done.
  - intros n.
    destruct (run_finished v (replicate n TimerFires) s Hge
                (ticks_reset_free n)).
    done.
Qed.

Lemma terminal_state_is_stable_witness :
  length (steps VariantA) ≤ step finishedA ∧
  execution_state (ticks VariantA 3 finishedA) = execution_state finishedA ∧
  step (ticks VariantA 3 finishedA) = step finishedA.
Proof.
  split; [vm_compute; lia|].
  apply (terminal_state_is_stable VariantA finishedA).
  vm_compute; lia.
Defined.

(** C6.  Whatever the component's state (any step index, any stack,
    queues and console output, playing or not), the reset handler leaves
    it in the initial configuration: step index 0, empty call stack, empty
    microtask and callback queues, empty console output, and not
    playing. *)
Theorem reset_returns_initial (v : Version) (s : Visualizer) :
  handle v ClickReset s = initialState ∧
  step (invoke resetState s) = 0 ∧
  callStack (invoke resetState s) = [] ∧
  microtaskQueue (invoke resetState s) = [] ∧
  callbackQueue (invoke resetState s) = [] ∧
  consoleOutput (invoke resetState s) = [] ∧
  isPlaying (invoke resetState s) = false.
Proof. repeat split. Qed.

(** C8.  Clicking pause while playing stops the player and changes
    nothing else: step index, call stack, both queues, console output and
    focus indicator keep their values, no timer stays pending, and a
    second click puts the component back in the very state it was paused
    in. *)
Theorem pause_keeps_position (v : Version) (s : Visualizer) :
  isPlaying s = true →
  isPlaying (handle v ClickPlayPause s) = false ∧
  pending_timer v (handle v ClickPlayPause s) = None ∧
  step (handle v ClickPlayPause s) = step s ∧
  callStack (handle v ClickPlayPause s) = callStack s ∧
  microtaskQueue (handle v ClickPlayPause s) = microtaskQueue s ∧
  callbackQueue (handle v ClickPlayPause s) = callbackQueue s ∧
  consoleOutput (handle v ClickPlayPause s) = consoleOutput s ∧
  lookingAt (handle v ClickPlayPause s) = lookingAt s ∧
  handle v ClickPlayPause (handle v ClickPlayPause s) = s.
Proof.
  intros Hp. destruct s as [p n cs mq cq co la]. simpl in Hp. subst p.
  unfold pending_timer. simpl. repeat split.
Qed.

Lemma pause_keeps_position_witness :
  isPlaying midwayB = true ∧
  isPlaying (handle VariantB ClickPlayPause midwayB) = false ∧
  pending_timer VariantB (handle VariantB ClickPlayPause midwayB) = None ∧
  step (handle VariantB ClickPlayPause midwayB) = step midwayB ∧
  callStack (handle VariantB ClickPlayPause midwayB) = callStack midwayB ∧
  microtaskQueue (handle VariantB ClickPlayPause midwayB)
    = microtaskQueue midwayB ∧
  callbackQueue (handle VariantB ClickPlayPause midwayB)
    = callbackQueue midwayB ∧
  consoleOutput (handle VariantB ClickPlayPause midwayB)
    = consoleOutput midwayB ∧
  lookingAt (handle VariantB ClickPlayPause midwayB) = lookingAt midwayB ∧
  handle VariantB ClickPlayPause (handle VariantB ClickPlayPause midwayB)
    = midwayB.
Proof.
  split; [reflexivity|].
  apply (pause_keeps_position VariantB midwayB). reflexivity.
Defined.

(** A tick while playing, with the step index inside the table. *)
Lemma tick_advances (v : Version) (s : Visualizer) :
  isPlaying s = true → step s < length (steps v) →
  ∃ body : Closure, steps v !! step s = Some body ∧
    handle v TimerFires s
      = dispatch (setStep (Value (step s + 1))) (invoke body s).
Proof.
  intros Hp Hlt. destruct (lookup_lt_is_Some_2 _ _ Hlt) as [body Hbody].
  exists body. split; [done|].
  rewrite tick_playing by done. by apply timeout_callback_in_range.
Qed.

(** Every event is of one of three kinds: a tick that advances the
    counter by one, a reset, or an event that moves neither the counter
    nor the Execution State. *)
Lemma handle_kinds (v : Version) (e : Event) (s : Visualizer) :
  (e = TimerFires ∧ isPlaying s = true ∧ step s < length (steps v) ∧
   step (handle v e s) = step s + 1)
  ∨ (e = ClickReset ∧ handle v e s = initialState)
  ∨ (step (handle v e s) = step s ∧
     execution_state (handle v e s) = execution_state s).
Proof.
  destruct e.
  - destruct (isPlaying s) eqn:Hp.
    + destruct (decide (step s < length (steps v))) as [Hlt|Hge].
      * left. destruct (tick_advances v s Hp Hlt) as (body & _ & ->).
        done.
      * right; right. apply tick_finished. lia.
    + right; right. by rewrite tick_paused.
  - right; right. apply toggle_frame.
  - right; left. done.
Qed.

(** C3.  While playing with the step index inside the table, a tick runs
    exactly the closure at the current index and adds exactly 1 to the
    index, and the player stays playing.  Every event either is such a
    tick, or is a reset (which leads to the initial state, index 0), or
    leaves the index and the Execution State alone.  Once the index has
    reached the table length, the next tick while playing stops the
    player, and no sequence of ticks and play/pause clicks applies a
    transition or moves the index again: only a reset does. *)
Theorem step_index_discipline (v : Version) (s : Visualizer) :
  (isPlaying s = true → step s < length (steps v) →
   ∃ body : Closure, steps v !! step s = Some body ∧
     execution_state (handle v TimerFires s)
       = execution_state (invoke body s) ∧
     step (handle v TimerFires s) = step s + 1 ∧
     isPlaying (handle v TimerFires s) = true) ∧
  (∀ e : Event,
     (e = TimerFires ∧ isPlaying s = true ∧ step s < length (steps v) ∧
      step (handle v e s) = step s + 1)
     ∨ (e = ClickReset ∧ handle v e s = initialState)
     ∨ (step (handle v e s) = step s ∧
        execution_state (handle v e s) = execution_state s)) ∧
  (length (steps v) ≤ step s →
   (isPlaying s = true →
    isPlaying (handle v TimerFires s) = false ∧
    pending_timer v (handle v TimerFires s) = None) ∧
   ∀ tr : list Event, reset_free tr →
     step (run v tr s) = step s ∧
     execution_state (run v tr s) = execution_state s).
Proof.
  split; [|split].
  - intros Hp Hlt. destruct (tick_advances v s Hp Hlt) as (body & Hbody & ->).
    exists body. repeat split; [done|].
    simpl. rewrite <- Hp.
    apply (closure_keeps_playing v). by eapply list_elem_of_lookup_2.
  - intros e. apply handle_kinds.
  - intros Hge. split.
    + intros Hp. rewrite tick_playing, timeout_callback_finished by done.
      done.
    + intros tr Hfree. by apply run_finished.
Qed.

Lemma step_index_discipline_witness :
  (isPlaying midwayB = true ∧ step midwayB < length (steps VariantB) ∧
   ∃ body : Closure, steps VariantB !! step midwayB = Some body ∧
     execution_state (handle VariantB TimerFires midwayB)
       = execution_state (invoke body midwayB) ∧
     step (handle VariantB TimerFires midwayB) = step midwayB + 1 ∧
     isPlaying (handle VariantB TimerFires midwayB) = true) ∧
  (length (steps VariantA) ≤ step finishedA ∧
   isPlaying finishedA = true ∧
   reset_free [TimerFires; ClickPlayPause; TimerFires] ∧
   isPlaying (handle VariantA TimerFires finishedA) = false ∧
   step (run VariantA [TimerFires; ClickPlayPause; TimerFires] finishedA)
     = step finishedA ∧
   execution_state
     (run VariantA [TimerFires; ClickPlayPause; TimerFires] finishedA)
     = execution_state finishedA).
Proof.
  assert (reset_free [TimerFires; ClickPlayPause; TimerFires]) as Hfree.
  { unfold reset_free. rewrite !not_elem_of_cons.
    repeat split; try discriminate. apply not_elem_of_nil. }
  assert (length (steps VariantA) ≤ step finishedA) as Hge
    by (vm_compute; lia).
  assert (step midwayB < length (steps VariantB)) as Hlt
    by (vm_compute; lia).
  destruct (step_index_discipline VariantB midwayB) as (Hadv & _ & _).
  destruct (step_index_discipline VariantA finishedA) as (_ & _ & Hend).
  destruct (Hend Hge) as [Hstop Hhalt].
  destruct (Hstop eq_refl) as [Hidle _].
  destruct (Hhalt _ Hfree) as [Hstep Hexec].
  split.
  - split; [reflexivity|]. split; [exact Hlt|]. exact (Hadv eq_refl Hlt).
  - repeat split; assumption.
Defined.

(** ** Console output *)

(** Case analysis over the closures of a literal table. *)
Ltac each_closure H :=
  repeat (apply elem_of_cons in H as [-> | H]);
  [.. | by apply elem_of_nil in H].

Lemma closure_console (v : Version) (body : Closure) (s : Visualizer) :
  body ∈ steps v →
  consoleOutput (invoke body s) = consoleOutput s
  ∨ ∃ line : string, consoleOutput (invoke body s) = consoleOutput s ++ [line].
Proof.
  intros Hin. destruct v; simpl in Hin; unfold stepsA, stepsB in Hin;
    each_closure Hin; simpl;
    first [ by left | right; eexists; reflexivity ].
Qed.

Lemma handle_console (v : Version) (e : Event) (s : Visualizer) :
  e ≠ ClickReset →
  consoleOutput s `prefix_of` consoleOutput (handle v e s).
Proof.
  intros Hne. destruct e; [|done|done].
  destruct (isPlaying s) eqn:Hp; [|by rewrite tick_paused].
  destruct (decide (step s < length (steps v))) as [Hlt|Hge].
  - destruct (tick_advances v s Hp Hlt) as (body & Hbody & ->). simpl.
    apply list_elem_of_lookup_2 in Hbody.
    destruct (closure_console v body s Hbody) as [->|[line ->]];
      [done|by apply prefix_app_r].
  - rewrite tick_playing, timeout_callback_finished by (done || lia). done.
Qed.

Lemma run_console (v : Version) (tr : list Event) (s : Visualizer) :
  reset_free tr →
  consoleOutput s `prefix_of` consoleOutput (run v tr s).
Proof.
  revert s. induction tr as [|e tr IH]; intros s Hfree; [done|].
  unfold reset_free in Hfree. apply not_elem_of_cons in Hfree as [Hne Hfree].
  rewrite run_cons. etrans; [|by apply IH].
  apply handle_console. congruence.
Qed.

(** C9.  Every closure of the step table leaves the console output as it
    is or appends exactly one string at its end; so, a run having no
    reset, the console output after [i] ticks is a prefix of the console
    output after [j] ticks whenever [i ≤ j], and more generally the
    console output only grows along any trace without a reset. *)
Theorem console_append_only (v : Version) :
  (∀ (body : Closure) (s : Visualizer), body ∈ steps v →
     consoleOutput (invoke body s) = consoleOutput s
     ∨ ∃ line : string,
         consoleOutput (invoke body s) = consoleOutput s ++ [line]) ∧
  (∀ (s : Visualizer) (i j : nat), i ≤ j →
     consoleOutput (ticks v i s) `prefix_of` consoleOutput (ticks v j s)) ∧
  (∀ (s : Visualizer) (tr : list Event), reset_free tr →
     consoleOutput s `prefix_of` consoleOutput (run v tr s)).
Proof.
  split; [|split].
  - intros body s Hin. by apply (closure_console v).
  - intros s i j Hle. replace j with (i + (j - i)) by lia.
    rewrite ticks_add. apply run_console, ticks_reset_free.
  - intros s tr Hfree. by apply run_console.
Qed.

Lemma console_append_only_witness :
  (2 ≤ 9 ∧
   consoleOutput (ticks VariantA 2 (started VariantA))
     `prefix_of` consoleOutput (ticks VariantA 9 (started VariantA))) ∧
  ([setCallStack (Value [GlobalExecutionContext])] ∈ steps VariantA ∧
   (consoleOutput
      (invoke [setCallStack (Value [GlobalExecutionContext])] midwayB)
      = consoleOutput midwayB
    ∨ ∃ line : string,
        consoleOutput
          (invoke [setCallStack (Value [GlobalExecutionContext])] midwayB)
          = consoleOutput midwayB ++ [line])).
Proof.
  destruct (console_append_only VariantA) as (Hbody & Hticks & _).
  assert ([setCallStack (Value [GlobalExecutionContext])] ∈ steps VariantA)
    as Hin by (apply (list_elem_of_lookup_2 _ 6); reflexivity).
  split.
  - split; [lia|]. apply Hticks. lia.
  - split; [exact Hin|]. apply Hbody, Hin.
Defined.

(** ** Replay *)

Lemma replay_S (v : Version) (i : nat) (body : Closure) (s : Visualizer) :
  steps v !! i = Some body →
  replay v (S i) s = invoke body (replay v i s).
Proof.
  intros Hbody. unfold replay.
  rewrite (take_S_r _ _ _ Hbody), foldl_app. reflexivity.
Qed.

(** Cells no closure of a list writes survive the fold over the list. *)
Lemma foldl_invoke_other (x : Cell) (bodies : list Closure) (s : Visualizer) :
  Forall (λ body, x ∉ written body) bodies →
  read x (foldl (λ acc body, invoke body acc) s bodies) = read x s.
Proof.
  revert s. induction bodies as [|body bodies IH]; intros s Hall; [done|].
  apply Forall_cons in Hall as [Hbody Hall]. simpl.
  rewrite IH by exact Hall. by apply invoke_other.
Qed.

Lemma replay_keeps_playing (v : Version) (i : nat) (s : Visualizer) :
  isPlaying (replay v i s) = isPlaying s.
Proof.
  apply (foldl_invoke_other IsPlaying), Forall_take, Forall_forall.
  intros body Hin. by apply (steps_leave_player_cells v).
Qed.

Lemma replay_keeps_step (v : Version) (i : nat) (s : Visualizer) :
  step (replay v i s) = step s.
Proof.
  apply (foldl_invoke_other Step), Forall_take, Forall_forall.
  intros body Hin. by apply (steps_leave_player_cells v).
Qed.

Lemma ticks_succ_r (v : Version) (n : nat) (s : Visualizer) :
  ticks v (S n) s = handle v TimerFires (ticks v n s).
Proof. replace (S n) with (n + 1) by lia. by rewrite ticks_add. Qed.

(** From a playing state at index 0, [i] ticks are the replay of the
    first [i] closures, with the counter at [i]. *)
Lemma ticks_replay (v : Version) (i : nat) (s : Visualizer) :
  isPlaying s = true → step s = 0 → i ≤ length (steps v) →
  ticks v i s = dispatch (setStep (Value i)) (replay v i s).
Proof.
  intros Hp H0. induction i as [|i IH]; intros Hle.
  - apply visualizer_ext. intros x. unfold ticks, replay.
    destruct x; simpl; congruence.
  - rewrite ticks_succ_r, IH by lia.
    set (s' := dispatch (setStep (Value i)) (replay v i s)).
    assert (isPlaying s' = true) as Hp'
      by (subst s'; simpl; by rewrite replay_keeps_playing).
    assert (step s' < length (steps v)) as Hlt by (subst s'; simpl; lia).
    destruct (tick_advances v s' Hp' Hlt) as (body & Hbody & ->).
    change (step s') with i in *. rewrite (replay_S v i body s Hbody).
    apply visualizer_ext. intros x.
    destruct (decide (x = Step)) as [->|Hx]; [simpl; lia|].
    rewrite !dispatch_other by done.
    apply invoke_local. subst s'. by rewrite dispatch_other.
Qed.

(** The replay of the source's table against the tabulated states,
    entry by entry. *)
Lemma replay_tabulated (v : Version) (i : nat) :
  i ≤ length (steps v) →
  tabulated v !! i = Some (execution_state (replay v i initialState)).
Proof.
  intros Hle. destruct v; simpl in Hle;
    do 14 (destruct i as [|i]; [first [vm_compute; reflexivity | lia]|]);
    lia.
Qed.

Lemma tabulated_length (v : Version) :
  length (tabulated v) = S (length (steps v)).
Proof. by destruct v. Qed.

(** C2.  For every step index [i] from 0 to the table length, running
    the closures at indices [0 .. i-1] in order, once each, from the
    initial all-empty state gives exactly the [i]-th tabulated state; and
    the player itself, started on a fresh page and ticked [i] times, is at
    step index [i] in that same state.  Replay is a function of [i]. *)
Theorem replay_matches_tabulated (v : Version) (i : nat) :
  i ≤ length (steps v) →
  tabulated v !! i = Some (execution_state (replay v i initialState)) ∧
  ticks v i (started v)
    = dispatch (setStep (Value i)) (replay v i (started v)) ∧
  step (ticks v i (started v)) = i ∧
  isPlaying (ticks v i (started v)) = true ∧
  tabulated v !! i = Some (execution_state (ticks v i (started v))).
Proof.
  intros Hle.
  assert (ticks v i (started v)
          = dispatch (setStep (Value i)) (replay v i (started v))) as Hticks
    by (by apply ticks_replay).
  split; [by apply replay_tabulated|]. split; [exact Hticks|].
  rewrite Hticks. split; [done|]. split.
  - simpl. by rewrite replay_keeps_playing.
  - rewrite replay_tabulated by exact Hle. f_equal.
    apply execution_state_read. intros x Hp Hs.
    rewrite dispatch_other by done.
    unfold replay. generalize (take i (steps v)). intros bodies.
    assert (∀ s1 s2 : Visualizer, read x s1 = read x s2 →
              read x (foldl (λ acc body, invoke body acc) s1 bodies)
              = read x (foldl (λ acc body, invoke body acc) s2 bodies))
      as Hlocal.
    { induction bodies as [|body bodies IH]; intros s1 s2 Heq; [done|].
      simpl. by apply IH, invoke_local. }
    apply Hlocal. by destruct x.
Qed.

Lemma replay_matches_tabulated_witness :
  7 ≤ length (steps VariantA) ∧
  tabulated VariantA !! 7
    = Some (execution_state (replay VariantA 7 initialState)) ∧
  ticks VariantA 7 (started VariantA)
    = dispatch (setStep (Value 7)) (replay VariantA 7 (started VariantA)) ∧
  step (ticks VariantA 7 (started VariantA)) = 7 ∧
  isPlaying (ticks VariantA 7 (started VariantA)) = true ∧
  tabulated VariantA !! 7
    = Some (execution_state (ticks VariantA 7 (started VariantA))).
Proof.
  split; [vm_compute; lia|].
  apply (replay_matches_tabulated VariantA 7). vm_compute; lia.
Defined.

(** C1.  The concrete scenario, in both variants: after 2 ticks the
    console output is exactly ["Start"] and the focus is on the stack;
    after 5 ticks the microtask queue and the callback queue hold exactly
    one entry each; after as many ticks as the table has closures (13 in
    the first variant, 12 in the second) the console output is exactly
    ["Start"; "End"; "Promise"; "Timeout"] and the call stack and both
    queues are empty.  The same holds of the bare replay of the table from
    the initial state. *)
Theorem concrete_scenario :
  length (steps VariantA) = 13 ∧ length (steps VariantB) = 12 ∧
  ∀ v : Version,
    (consoleOutput (ticks v 2 (started v)) = ["Start"] ∧
     lookingAt (ticks v 2 (started v)) = stack ∧
     length (microtaskQueue (ticks v 5 (started v))) = 1 ∧
     length (callbackQueue (ticks v 5 (started v))) = 1 ∧
     consoleOutput (ticks v (length (steps v)) (started v))
       = ["Start"; "End"; "Promise"; "Timeout"] ∧
     callStack (ticks v (length (steps v)) (started v)) = [] ∧
     microtaskQueue (ticks v (length (steps v)) (started v)) = [] ∧
     callbackQueue (ticks v (length (steps v)) (started v)) = []) ∧
    (consoleOutput (replay v 2 initialState) = ["Start"] ∧
     lookingAt (replay v 2 initialState) = stack ∧
     length (microtaskQueue (replay v 5 initialState)) = 1 ∧
     length (callbackQueue (replay v 5 initialState)) = 1 ∧
     consoleOutput (replay v (length (steps v)) initialState)
       = ["Start"; "End"; "Promise"; "Timeout"] ∧
     callStack (replay v (length (steps v)) initialState) = [] ∧
     microtaskQueue (replay v (length (steps v)) initialState) = [] ∧
     callbackQueue (replay v (length (steps v)) initialState) = []).
Proof.
  split; [reflexivity|]. split; [reflexivity|].
  intros v. destruct v; vm_compute; repeat split.
Qed.

(** ** Reachable states *)

Lemma reachable_run (v : Version) (tr : list Event) :
  reachable v (run v tr initialState).
Proof.
  induction tr as [|e tr IH] using rev_ind; [apply reachable_initial|].
  rewrite run_app. simpl. by apply reachable_handle.
Qed.

(** Whatever the clicks and ticks so far, the step index is within the
    table and the Execution State on display is the tabulated one for
    that index. *)
Lemma reachable_tabulated (v : Version) (s : Visualizer) :
  reachable v s →
  step s ≤ length (steps v) ∧
  tabulated v !! step s = Some (execution_state s).
Proof.
  induction 1 as [|e s Hreach [IHle IHtab]].
  - split; [simpl; lia|by destruct v].
  - destruct (handle_kinds v e s)
      as [(-> & Hp & Hlt & Hstep)|[(-> & ->)|(Hstep & Hexec)]].
    + split; [lia|].
      destruct (tick_advances v s Hp Hlt) as (body & Hbody & Htick).
      rewrite Hstep, Htick. replace (step s + 1) with (S (step s)) by lia.
      rewrite replay_tabulated by lia. f_equal.
      rewrite (replay_S v _ body _ Hbody).
      change (execution_state (invoke body (replay v (step s) initialState))
              = execution_state (invoke body s)).
      apply invoke_execution_state.
      rewrite replay_tabulated in IHtab by lia. congruence.
    + split; [simpl; lia|by destruct v].
    + rewrite Hstep, Hexec. done.
Qed.

Lemma tabulated_sizes (v : Version) :
  Forall (λ '(cs, mq, cq, _, _),
            length mq ≤ 1 ∧ length cq ≤ 1 ∧ length cs ≤ 2) (tabulated v).
Proof.
  destruct v; simpl; unfold tabulatedA, tabulatedB;
    repeat (apply Forall_cons_2; [simpl; lia|]); apply Forall_nil_2.
Qed.

(** C10.  In every state the component can reach from a fresh page, by
    ticks and clicks in any order and in either variant, the microtask
    queue holds at most one frame, the callback queue at most one, and the
    call stack at most two.  So does every state of the bare replay of the
    table from the initial state. *)
Theorem reachable_sizes_bounded (v : Version) :
  (∀ s : Visualizer, reachable v s →
     length (microtaskQueue s) ≤ 1 ∧ length (callbackQueue s) ≤ 1 ∧
     length (callStack s) ≤ 2) ∧
  (∀ i : nat,
     length (microtaskQueue (replay v i initialState)) ≤ 1 ∧
     length (callbackQueue (replay v i initialState)) ≤ 1 ∧
     length (callStack (replay v i initialState)) ≤ 2).
Proof.
  assert (∀ (i : nat) (s : Visualizer),
            tabulated v !! i = Some (execution_state s) →
            length (microtaskQueue s) ≤ 1 ∧ length (callbackQueue s) ≤ 1 ∧
            length (callStack s) ≤ 2) as Hbound.
  { intros i s Htab.
    pose proof (tabulated_sizes v) as Hall.
    rewrite Forall_lookup in Hall. exact (Hall _ _ Htab). }
  split.
  - intros s Hreach. destruct (reachable_tabulated v s Hreach) as [_ Htab].
    by eapply Hbound.
  - intros i. destruct (decide (i ≤ length (steps v))) as [Hle|Hgt].
    + eapply Hbound. by apply replay_tabulated.
    + unfold replay. rewrite take_ge by lia.
      rewrite <- (take_ge (steps v) (length (steps v))) by lia.
      apply (Hbound (length (steps v))). by apply replay_tabulated.
Qed.

Lemma reachable_sizes_bounded_witness :
  reachable VariantB (ticks VariantB 5 (started VariantB)) ∧
  length (microtaskQueue (ticks VariantB 5 (started VariantB))) ≤ 1 ∧
  length (callbackQueue (ticks VariantB 5 (started VariantB))) ≤ 1 ∧
  length (callStack (ticks VariantB 5 (started VariantB))) ≤ 2.
Proof.
  assert (reachable VariantB (ticks VariantB 5 (started VariantB))) as Hreach
    by (do 6 apply reachable_handle; apply reachable_initial).
  split; [exact Hreach|].
  destruct (reachable_sizes_bounded VariantB) as [Hsizes _].
  exact (Hsizes _ Hreach).
Defined.

(** ** How far the closures depend on the state they start from *)

(** C7, as stated, fails.  The closure at index 1 writes the console
    output with the updater [(prev) => [...prev, "Start"]]: run from the
    initial state it leaves ["Start"], run from a state whose console
    already shows ["Start"] it leaves ["Start"; "Start"].  So neither
    table is purely positional. *)
Lemma console_write_depends_on_prior_state :
  steps VariantA !! 1 = Some logStartStep ∧
  steps VariantB !! 1 = Some logStartStep ∧
  ConsoleOutput ∈ written logStartStep ∧
  consoleOutput (invoke logStartStep initialState) = ["Start"] ∧
  consoleOutput (invoke logStartStep midwayB) = ["Start"; "Start"] ∧
  ¬ purely_positional (steps VariantA) ∧
  ¬ purely_positional (steps VariantB).
Proof.
  assert (ConsoleOutput ∈ written logStartStep) as Hw
    by (apply (list_elem_of_lookup_2 _ 1); reflexivity).
  repeat split; try reflexivity; try exact Hw.
  - intros Hpos.
    pose proof (Hpos 1 logStartStep eq_refl ConsoleOutput Hw
                  initialState midwayB) as Heq.
    discriminate Heq.
  - intros Hpos.
    pose proof (Hpos 1 logStartStep eq_refl ConsoleOutput Hw
                  initialState midwayB) as Heq.
    discriminate Heq.
Qed.

(** A closure with a literal list of setter calls does not write the
    cell named in [H]. *)
Ltac not_written H :=
  exfalso; unfold written in H; simpl in H;
  repeat (apply elem_of_cons in H as [H | H]; [discriminate H|]);
  by apply elem_of_nil in H.

Ltac constant_write H :=
  first [ by intros | not_written H ].

Ltac queue_write H :=
  first [ by left; intros
        | by right; eexists; intros
        | not_written H ].

Ltac append_write H :=
  first [ by eexists; intros | not_written H ].

(** C7, amended.  Every closure of the step table is a fixed sequence of
    setter calls, the same whatever state it runs from.  The call stack
    and the focus indicator, when the closure writes them, get a value
    that does not depend on the prior state; a queue the closure writes
    is either emptied or gets one fixed label appended to its prior
    value; the console output, when written, gets one fixed line appended
    to its prior value.  A cell the closure does not write keeps its
    value, and the value a closure leaves in a cell depends on the prior
    value of that cell alone. *)
Theorem transitions_positional_up_to_appends
    (v : Version) (i : nat) (body : Closure) :
  steps v !! i = Some body →
  (CallStack ∈ written body →
   ∀ s1 s2 : Visualizer,
     callStack (invoke body s1) = callStack (invoke body s2)) ∧
  (Focus ∈ written body →
   ∀ s1 s2 : Visualizer,
     lookingAt (invoke body s1) = lookingAt (invoke body s2)) ∧
  (MicrotaskQueue ∈ written body →
   (∀ s : Visualizer, microtaskQueue (invoke body s) = [])
   ∨ ∃ label : string, ∀ s : Visualizer,
       microtaskQueue (invoke body s) = microtaskQueue s ++ [label]) ∧
  (CallbackQueue ∈ written body →
   (∀ s : Visualizer, callbackQueue (invoke body s) = [])
   ∨ ∃ label : string, ∀ s : Visualizer,
       callbackQueue (invoke body s) = callbackQueue s ++ [label]) ∧
  (ConsoleOutput ∈ written body →
   ∃ line : string, ∀ s : Visualizer,
     consoleOutput (invoke body s) = consoleOutput s ++ [line]) ∧
  (∀ x : Cell, x ∉ written body →
   ∀ s : Visualizer, read x (invoke body s) = read x s) ∧
  (∀ (x : Cell) (s1 s2 : Visualizer), read x s1 = read x s2 →
     read x (invoke body s1) = read x (invoke body s2)).
Proof.
  intros Hbody.
  assert (∀ x : Cell, x ∉ written body →
          ∀ s : Visualizer, read x (invoke body s) = read x s) as Hother
    by (intros x Hx s; by apply invoke_other).
  assert (∀ (x : Cell) (s1 s2 : Visualizer), read x s1 = read x s2 →
          read x (invoke body s1) = read x (invoke body s2)) as Hlocal
    by (intros x s1 s2 Heq; by apply invoke_local).
  destruct v; simpl in Hbody; unfold stepsA, stepsB in Hbody;
    do 13 (destruct i as [|i];
           [simpl in Hbody; first [discriminate Hbody | injection Hbody as <-];
            (split; [intros Hw; constant_write Hw|]);
            (split; [intros Hw; constant_write Hw|]);
            (split; [intros Hw; queue_write Hw|]);
            (split; [intros Hw; queue_write Hw|]);
            (split; [intros Hw; append_write Hw|]);
            (split; [exact Hother | exact Hlocal])|]);
    simpl in Hbody; discriminate Hbody.
Qed.

Lemma transitions_positional_up_to_appends_witness :
  steps VariantA !! 9 = Some
    [ setCallStack (Value []); setLookingAt (Value callback) ] ∧
  CallStack ∈ written
    [ setCallStack (Value []); setLookingAt (Value callback) ] ∧
  callStack
    (invoke [ setCallStack (Value []); setLookingAt (Value callback) ]
       initialState)
  = callStack
      (invoke [ setCallStack (Value []); setLookingAt (Value callback) ]
         midwayB) ∧
  (ConsoleOutput ∉ written
     [ setCallStack (Value []); setLookingAt (Value callback) ]) ∧
  consoleOutput
    (invoke [ setCallStack (Value []); setLookingAt (Value callback) ]
       midwayB)
  = consoleOutput midwayB.
Proof.
  destruct (transitions_positional_up_to_appends VariantA 9
              [ setCallStack (Value []); setLookingAt (Value callback) ]
              eq_refl)
    as (Hstack & _ & _ & _ & _ & Hother & _).
  assert (CallStack ∈ written
            [ setCallStack (Value []); setLookingAt (Value callback) ])
    as Hw by (apply (list_elem_of_lookup_2 _ 0); reflexivity).
  assert (ConsoleOutput ∉ written
            [ setCallStack (Value []); setLookingAt (Value callback) ])
    as Hnw by (apply (bool_decide_unpack _); vm_compute; exact I).
  split; [reflexivity|]. split; [exact Hw|].
  split; [exact (Hstack Hw initialState midwayB)|].
  split; [exact Hnw|]. exact (Hother ConsoleOutput Hnw midwayB).
Defined.

(** * Further properties of the component *)

(** ** Invariants of reachable states *)

Lemma reachable_run_from (v : Version) (tr : list Event) (s : Visualizer) :
  reachable v s → reachable v (run v tr s).
Proof.
  revert s. induction tr as [|e tr IH]; intros s Hreach; [done|].
  rewrite run_cons. by apply IH, reachable_handle.
Qed.

(** A property of every tabulated state holds of the Execution State of
    every reachable state. *)
Lemma reachable_invariant (v : Version) (P : ExecutionState → Prop)
    (s : Visualizer) :
  Forall P (tabulated v) → reachable v s → P (execution_state s).
Proof.
  intros Hall Hreach. destruct (reachable_tabulated v s Hreach) as [_ Htab].
  rewrite Forall_lookup in Hall. exact (Hall _ _ Htab).
Qed.

(** [Forall] over a literal list, entry by entry. *)
Ltac forall_entries tac :=
  lazymatch goal with
  | |- Forall _ [] => apply Forall_nil_2
  | |- Forall _ (_ :: _) => apply Forall_cons_2; [tac | forall_entries tac]
  end.

(** Both variants: what has to be shown of each tabulated state. *)
Ltac each_tabulated tac :=
  match goal with
  | v : Version |- _ => destruct v
  end;
  simpl; unfold tabulatedA, tabulatedB; forall_entries tac.

(** The step index never leaves the table, and it determines the
    Execution State on display: two reachable states at the same index
    show the same call stack, queues, console output and focus, however
    many pauses, resumes and resets led to each of them. *)
Theorem step_index_determines_display (v : Version) (s1 s2 : Visualizer) :
  reachable v s1 → reachable v s2 →
  step s1 ≤ length (steps v) ∧
  (step s1 = step s2 → execution_state s1 = execution_state s2).
Proof.
  intros H1 H2.
  destruct (reachable_tabulated v s1 H1) as [Hle Htab1].
  destruct (reachable_tabulated v s2 H2) as [_ Htab2].
  split; [exact Hle|]. intros Heq. rewrite Heq in Htab1. congruence.
Qed.

Lemma step_index_determines_display_witness :
  reachable VariantB (ticks VariantB 5 (started VariantB)) ∧
  reachable VariantB
    (run VariantB
       ([ClickPlayPause; TimerFires; TimerFires; ClickReset; ClickPlayPause]
        ++ replicate 5 TimerFires ++ [ClickPlayPause])
       initialState) ∧
  step (ticks VariantB 5 (started VariantB)) ≤ length (steps VariantB) ∧
  execution_state (ticks VariantB 5 (started VariantB))
  = execution_state
      (run VariantB
         ([ClickPlayPause; TimerFires; TimerFires; ClickReset; ClickPlayPause]
          ++ replicate 5 TimerFires ++ [ClickPlayPause])
         initialState).
Proof.
  assert (reachable VariantB (ticks VariantB 5 (started VariantB))) as H1
    by (do 6 apply reachable_handle; apply reachable_initial).
  assert (reachable VariantB
            (run VariantB
               ([ClickPlayPause; TimerFires; TimerFires; ClickReset;
                 ClickPlayPause]
                ++ replicate 5 TimerFires ++ [ClickPlayPause])
               initialState)) as H2
    by apply reachable_run.
  destruct (step_index_determines_display VariantB _ _ H1 H2) as [Hle Hsame].
  split; [exact H1|]. split; [exact H2|]. split; [exact Hle|].
  apply Hsame. reflexivity.
Defined.

(** ** The description line *)

(** The text "Visualization complete" is what the description line falls
    back to when [stepDescriptions] has no entry for the step index.  In
    the first variant a reachable state shows it exactly when the whole
    table has been replayed.  In the second variant no reachable state
    shows it: the description array has one entry more than the step
    table, so the line ends on its last entry.  Whenever the fallback is
    not shown, the line is the entry of [stepDescriptions] at the step
    index. *)
Theorem description_fallback (v : Version) (s : Visualizer) :
  reachable v s →
  (description v s = visualizationComplete
   ↔ v = VariantA ∧ step s = length (steps v)) ∧
  (description v s ≠ visualizationComplete →
   stepDescriptions v !! step s = Some (description v s)).
Proof.
  intros Hreach. destruct (reachable_tabulated v s Hreach) as [Hle _].
  unfold description. destruct s as [p n cs mq cq co la]. simpl in *.
  destruct v; simpl in Hle;
    do 14 (destruct n as [|n];
           [first [ lia
                  | split; [split; [intros Heq; discriminate Heq
                                   | intros [Hv Hn]; discriminate]
                           | reflexivity]
                  | split; [split; [done|reflexivity]|intros Hne; done] ]|]);
    lia.
Qed.

Lemma description_fallback_witness :
  reachable VariantA (ticks VariantA 13 (started VariantA)) ∧
  reachable VariantB (ticks VariantB 12 (started VariantB)) ∧
  (description VariantA (ticks VariantA 13 (started VariantA))
   = visualizationComplete
   ↔ VariantA = VariantA ∧
     step (ticks VariantA 13 (started VariantA)) = length (steps VariantA)) ∧
  (description VariantB (ticks VariantB 12 (started VariantB))
   ≠ visualizationComplete →
   stepDescriptions VariantB !! step (ticks VariantB 12 (started VariantB))
   = Some (description VariantB (ticks VariantB 12 (started VariantB)))).
Proof.
  assert (reachable VariantA (ticks VariantA 13 (started VariantA))) as HA
    by (do 14 apply reachable_handle; apply reachable_initial).
  assert (reachable VariantB (ticks VariantB 12 (started VariantB))) as HB
    by (do 13 apply reachable_handle; apply reachable_initial).
  destruct (description_fallback VariantA _ HA) as [Hiff _].
  destruct (description_fallback VariantB _ HB) as [_ Hentry].
  split; [exact HA|]. split; [exact HB|]. split; [exact Hiff|exact Hentry].
Defined.

(** ** The call stack panel *)

(** The panel reverses a copy of the call stack twice, once at the call
    and once inside [renderCallStack], so whatever the state the frames
    are drawn in the order of the [callStack] cell, top of the stack
    first.  The frame at position [i] has key [i], z-index
    [length - i] (at least 1, highest on the top frame) and is shifted by
    [-2 * i] pixels; only the first frame lacks the overlap class and only
    the last one lacks the shadow strip.  The "Call Stack Empty" text is
    shown exactly when no frame is drawn. *)
Theorem call_stack_rendered_top_first (s : Visualizer) :
  frameLabel <$> stackFrames (callStackView s) = callStack s ∧
  (stackPlaceholder (callStackView s) = true
   ↔ stackFrames (callStackView s) = []) ∧
  ∀ (i : nat) (view : FrameView),
    stackFrames (callStackView s) !! i = Some view →
    callStack s !! i = Some (frameLabel view) ∧
    frameKey view = i ∧
    frameZIndex view = (Z.of_nat (length (callStack s)) - Z.of_nat i)%Z ∧
    (1 ≤ frameZIndex view)%Z ∧
    frameTranslateY view = (- 2 * Z.of_nat i)%Z ∧
    (frameOverlaps view = false ↔ i = 0) ∧
    (frameShadow view = false ↔ S i = length (callStack s)).
Proof.
  unfold callStackView, renderCallStack. simpl.
  rewrite rev_involutive, !length_rev.
  split; [|split].
  - rewrite fmap_imap.
    rewrite (imap_ext _ (const id)) by done.
    by rewrite imap_const, list_fmap_id.
  - destruct (callStack s) as [|frame cs]; simpl; split; intros H; done.
  - intros i view Hview. rewrite list_lookup_imap in Hview.
    destruct (callStack s !! i) as [frame|] eqn:Hframe; [|done].
    apply lookup_lt_Some in Hframe as Hlt.
    simpl in Hview. injection Hview as <-. simpl.
    repeat split; try lia.
    + intros Hb. apply bool_decide_eq_false in Hb. lia.
    + intros ->. apply bool_decide_eq_false. lia.
    + intros Hb. apply bool_decide_eq_false in Hb. lia.
    + intros Hi. apply bool_decide_eq_false. lia.
Qed.

Lemma call_stack_rendered_top_first_witness :
  stackFrames (callStackView (ticks VariantB 8 (started VariantB))) !! 1
  = Some (mkFrameView 1 "bg-indigo-900 border-indigo-500" true (-2) 1
            GlobalExecutionContext false) ∧
  callStack (ticks VariantB 8 (started VariantB)) !! 1
  = Some GlobalExecutionContext ∧
  (frameShadow
     (mkFrameView 1 "bg-indigo-900 border-indigo-500" true (-2) 1
        GlobalExecutionContext false) = false
   ↔ 2 = length (callStack (ticks VariantB 8 (started VariantB)))).
Proof.
  assert (stackFrames (callStackView (ticks VariantB 8 (started VariantB)))
          !! 1
          = Some (mkFrameView 1 "bg-indigo-900 border-indigo-500" true (-2) 1
                    GlobalExecutionContext false)) as Hview
    by (vm_compute; reflexivity).
  destruct (call_stack_rendered_top_first (ticks VariantB 8 (started VariantB)))
    as (_ & _ & Hframes).
  destruct (Hframes 1 _ Hview) as (Hlabel & _ & _ & _ & _ & _ & Hshadow).
  split; [exact Hview|]. split; [exact Hlabel|exact Hshadow].
Defined.

Lemma tabulated_frames_have_colors (v : Version) :
  Forall (λ '(cs, _, _, _, _), Forall (λ frame, has_own_color frame = true) cs)
    (tabulated v).
Proof.
  each_tabulated
    ltac:(cbv beta iota; forall_entries ltac:(vm_compute; reflexivity)).
Qed.

(** Every frame drawn in a reachable state gets its colour classes from
    an own entry of [contextColors]: the grey fallback of the [||] is
    never what is shown. *)
Theorem stack_frames_have_colors
    (v : Version) (s : Visualizer) (view : FrameView) :
  reachable v s → view ∈ stackFrames (callStackView s) →
  contextColors !! frameLabel view = Some (frameColor view) ∧
  frameColor view ≠ fallbackColor.
Proof.
  intros Hreach Hview.
  pose proof (reachable_invariant v _ s (tabulated_frames_have_colors v) Hreach)
    as Hall. simpl in Hall.
  unfold callStackView, renderCallStack in Hview. simpl in Hview.
  rewrite rev_involutive in Hview.
  apply elem_of_lookup_imap in Hview as (i & frame & -> & Hframe). simpl.
  rewrite Forall_lookup in Hall. specialize (Hall i frame Hframe).
  unfold has_own_color in Hall.
  destruct (contextColors !! frame) as [classes|]; [|done].
  apply bool_decide_eq_true in Hall as [Hne Hfb].
  destruct classes; [done|]. done.
Qed.

Lemma stack_frames_have_colors_witness :
  reachable VariantB (ticks VariantB 5 (started VariantB)) ∧
  mkFrameView 0 "bg-indigo-900 border-indigo-500" false 0 1
    GlobalExecutionContext false
  ∈ stackFrames (callStackView (ticks VariantB 5 (started VariantB))) ∧
  contextColors !! GlobalExecutionContext
  = Some "bg-indigo-900 border-indigo-500" ∧
  "bg-indigo-900 border-indigo-500" ≠ fallbackColor.
Proof.
  assert (reachable VariantB (ticks VariantB 5 (started VariantB))) as Hreach
    by (do 6 apply reachable_handle; apply reachable_initial).
  assert (mkFrameView 0 "bg-indigo-900 border-indigo-500" false 0 1
            GlobalExecutionContext false
          ∈ stackFrames (callStackView (ticks VariantB 5 (started VariantB))))
    as Hview by (apply (list_elem_of_lookup_2 _ 0); vm_compute; reflexivity).
  split; [exact Hreach|]. split; [exact Hview|].
  exact (stack_frames_have_colors VariantB _ _ Hreach Hview).
Defined.

(** ** The queue panels *)

Lemma tabulated_focus_on_entry (v : Version) :
  Forall (λ '(_, mq, cq, _, la),
            (la = microtask → length mq = 1) ∧
            (la = callback → length cq = 1))
    (tabulated v).
Proof.
  each_tabulated ltac:(cbv beta iota; split; intros Hla;
                       first [discriminate Hla | reflexivity]).
Qed.

(** In a reachable state the highlighted queue panel is never the one
    showing "Queue Empty": when the focus is on the microtask queue, or
    on the callback queue, that panel lists exactly one entry. *)
Theorem highlighted_queue_holds_an_entry (v : Version) (s : Visualizer) :
  reachable v s →
  (queueActive (microtaskQueueView v s) = true →
   queuePlaceholder (microtaskQueueView v s) = false ∧
   queueItems (microtaskQueueView v s)
   = [(0, default EmptyString (head (microtaskQueue s)))] ∧
   length (microtaskQueue s) = 1) ∧
  (queueActive (callbackQueueView s) = true →
   queuePlaceholder (callbackQueueView s) = false ∧
   queueItems (callbackQueueView s)
   = [(0, default EmptyString (head (callbackQueue s)))] ∧
   length (callbackQueue s) = 1).
Proof.
  intros Hreach.
  pose proof (reachable_invariant v _ s (tabulated_focus_on_entry v) Hreach)
    as [Hmq Hcq]. simpl in Hmq, Hcq.
  unfold microtaskQueueView, callbackQueueView, renderQueue. simpl.
  split; intros Hactive; apply bool_decide_eq_true in Hactive.
  - specialize (Hmq Hactive).
    destruct (microtaskQueue s) as [|x [|y mq]]; simpl in Hmq; try lia.
    done.
  - specialize (Hcq Hactive).
    destruct (callbackQueue s) as [|x [|y cq]]; simpl in Hcq; try lia.
    done.
Qed.

Lemma highlighted_queue_holds_an_entry_witness :
  reachable VariantB (ticks VariantB 5 (started VariantB)) ∧
  queueActive (microtaskQueueView VariantB (ticks VariantB 5 (started VariantB)))
  = true ∧
  queuePlaceholder
    (microtaskQueueView VariantB (ticks VariantB 5 (started VariantB)))
  = false ∧
  length (microtaskQueue (ticks VariantB 5 (started VariantB))) = 1.
Proof.
  assert (reachable VariantB (ticks VariantB 5 (started VariantB))) as Hreach
    by (do 6 apply reachable_handle; apply reachable_initial).
  destruct (highlighted_queue_holds_an_entry VariantB _ Hreach) as [Hmq _].
  destruct (Hmq eq_refl) as (Hplace & _ & Hlen).
  split; [exact Hreach|]. split; [reflexivity|]. split; assumption.
Defined.

(** ** Console output and pending callbacks *)

Lemma tabulated_console_prefix (v : Version) :
  Forall (λ '(_, _, _, co, _), co `prefix_of` programOutput) (tabulated v).
Proof.
  each_tabulated ltac:(cbv beta iota; eexists; reflexivity).
Qed.

(** Whatever the clicks and ticks, the console panel shows an initial
    segment of what the example program prints, "Start", "End",
    "Promise", "Timeout", in that order: no line is ever duplicated,
    skipped or shown out of order. *)
Theorem console_shows_program_output_so_far (v : Version) (s : Visualizer) :
  reachable v s → consoleOutput s `prefix_of` programOutput.
Proof.
  intros Hreach.
  exact (reachable_invariant v _ s (tabulated_console_prefix v) Hreach).
Qed.

Lemma console_shows_program_output_so_far_witness :
  reachable VariantA (ticks VariantA 9 (started VariantA)) ∧
  consoleOutput (ticks VariantA 9 (started VariantA))
    `prefix_of` programOutput.
Proof.
  assert (reachable VariantA (ticks VariantA 9 (started VariantA))) as Hreach
    by (do 10 apply reachable_handle; apply reachable_initial).
  split; [exact Hreach|].
  exact (console_shows_program_output_so_far VariantA _ Hreach).
Defined.

Lemma tabulated_pending_not_printed (v : Version) :
  Forall (λ '(_, mq, cq, co, _),
            (mq ≠ [] → cq ≠ [] ∧ "Promise" ∉ co) ∧
            (cq ≠ [] → "Timeout" ∉ co))
    (tabulated v).
Proof.
  each_tabulated
    ltac:(cbv beta iota; split; intros Hne;
          first [ done
                | split; [done|];
                  apply (bool_decide_unpack _); vm_compute; exact I
                | apply (bool_decide_unpack _); vm_compute; exact I ]).
Qed.

(** The microtask has priority over the timer callback: in a reachable
    state, while the promise callback waits in the microtask queue the
    timer callback is still in the callback queue and "Promise" has not
    been printed; and while the timer callback waits in the callback queue
    "Timeout" has not been printed. *)
Theorem pending_callbacks_have_not_printed (v : Version) (s : Visualizer) :
  reachable v s →
  (microtaskQueue s ≠ [] →
   callbackQueue s ≠ [] ∧ "Promise" ∉ consoleOutput s) ∧
  (callbackQueue s ≠ [] → "Timeout" ∉ consoleOutput s).
Proof.
  intros Hreach.
  exact (reachable_invariant v _ s (tabulated_pending_not_printed v) Hreach).
Qed.

Lemma pending_callbacks_have_not_printed_witness :
  reachable VariantA (ticks VariantA 8 (started VariantA)) ∧
  microtaskQueue (ticks VariantA 8 (started VariantA)) ≠ [] ∧
  callbackQueue (ticks VariantA 8 (started VariantA)) ≠ [] ∧
  ("Promise" ∉ consoleOutput (ticks VariantA 8 (started VariantA))) ∧
  ("Timeout" ∉ consoleOutput (ticks VariantA 8 (started VariantA))).
Proof.
  assert (reachable VariantA (ticks VariantA 8 (started VariantA))) as Hreach
    by (do 9 apply reachable_handle; apply reachable_initial).
  assert (microtaskQueue (ticks VariantA 8 (started VariantA)) ≠ []) as Hmq
    by (vm_compute; discriminate).
  destruct (pending_callbacks_have_not_printed VariantA _ Hreach)
    as [Hmicro Hcallback].
  destruct (Hmicro Hmq) as [Hcq Hpromise].
  split; [exact Hreach|]. split; [exact Hmq|]. split; [exact Hcq|].
  split; [exact Hpromise|exact (Hcallback Hcq)].
Defined.

(** ** The call stack behaves as a stack *)

Lemma tabulated_stack_move (v : Version) (i : nat) (s1 s2 : Visualizer) :
  tabulated v !! i = Some (execution_state s1) →
  tabulated v !! S i = Some (execution_state s2) →
  stack_move (callStack s1) (callStack s2).
Proof.
  destruct s1 as [p1 n1 cs1 mq1 cq1 co1 la1].
  destruct s2 as [p2 n2 cs2 mq2 cq2 co2 la2].
  unfold execution_state, stack_move. simpl. intros H1 H2.
  destruct v; simpl in H1, H2; unfold tabulatedA, tabulatedB in H1, H2;
    do 14 (destruct i as [|i];
           [simpl in H1, H2;
            first [ discriminate H2
                  | injection H1 as <- _ _ _ _; injection H2 as <- _ _ _ _;
                    first [ by left
                          | by right; left; eexists
                          | by right; right; eexists ] ]|]);
    simpl in H1; discriminate H1.
Qed.

(** Between a reachable state and the state after a tick or a click on
    play/pause, the call stack on display is unchanged, or has one frame
    pushed on top, or has its top frame popped.  Only a reset can clear
    more than one frame at once. *)
Theorem call_stack_moves_one_frame (v : Version) (e : Event) (s : Visualizer) :
  reachable v s → e ≠ ClickReset →
  stack_move (callStack s) (callStack (handle v e s)).
Proof.
  intros Hreach Hne.
  destruct (handle_kinds v e s)
    as [(-> & Hp & Hlt & Hstep)|[(-> & _)|(_ & Hexec)]]; [|done|].
  - destruct (reachable_tabulated v s Hreach) as [_ Htab].
    destruct (reachable_tabulated v _ (reachable_handle v TimerFires s Hreach))
      as [_ Htab'].
    rewrite Hstep in Htab'. replace (step s + 1) with (S (step s)) in Htab'
      by lia.
    exact (tabulated_stack_move v _ _ _ Htab Htab').
  - left. unfold execution_state in Hexec. congruence.
Qed.

Lemma call_stack_moves_one_frame_witness :
  reachable VariantB (ticks VariantB 7 (started VariantB)) ∧
  TimerFires ≠ ClickReset ∧
  stack_move
    (callStack (ticks VariantB 7 (started VariantB)))
    (callStack (handle VariantB TimerFires (ticks VariantB 7 (started VariantB)))).
Proof.
  assert (reachable VariantB (ticks VariantB 7 (started VariantB))) as Hreach
    by (do 8 apply reachable_handle; apply reachable_initial).
  assert (TimerFires ≠ ClickReset) as Hne by discriminate.
  split; [exact Hreach|]. split; [exact Hne|].
  exact (call_stack_moves_one_frame VariantB TimerFires _ Hreach Hne).
Defined.

(** ** Running, pausing, finishing *)

Lemma ticks_paused (v : Version) (n : nat) (s : Visualizer) :
  isPlaying s = false → ticks v n s = s.
Proof.
  intros Hp. induction n as [|n IH]; [done|].
  by rewrite ticks_S, tick_paused.
Qed.

(** While the player keeps playing inside the table, [n] ticks move the
    step index by [n] and leave it playing. *)
Lemma ticks_playing (v : Version) (n : nat) (s : Visualizer) :
  isPlaying s = true → step s + n ≤ length (steps v) →
  isPlaying (ticks v n s) = true ∧ step (ticks v n s) = step s + n.
Proof.
  revert s. induction n as [|n IH]; intros s Hp Hle.
  - split; [done|]. unfold ticks. simpl. lia.
  - rewrite ticks_S.
    destruct (tick_advances v s Hp ltac:(lia)) as (body & Hbody & Htick).
    apply list_elem_of_lookup_2 in Hbody.
    assert (isPlaying (handle v TimerFires s) = true) as Hp'.
    { rewrite Htick. simpl. by rewrite (closure_keeps_playing v). }
    assert (step (handle v TimerFires s) = step s + 1) as Hs'
      by (rewrite Htick; done).
    destruct (IH (handle v TimerFires s) Hp' ltac:(lia)) as [IHp IHs].
    split; [done|lia].
Qed.

Lemma tabulated_last (v : Version) (s : Visualizer) :
  tabulated v !! length (steps v) = Some (execution_state s) →
  execution_state s = ([], [], [], programOutput, stack).
Proof.
  intros Htab. apply (inj Some). rewrite <- Htab. by destruct v.
Qed.

(** Pressing play is enough to finish the replay.  From a reachable
    state that is playing at step index [k], the player keeps playing and
    advances one step per tick for the [length - k] ticks the table still
    has; the tick after that stops it, on the last tabulated state: empty
    stack and queues, the four lines of output, focus on the stack.  No
    further tick changes anything. *)
Theorem playing_runs_to_completion (v : Version) (s : Visualizer) :
  reachable v s → isPlaying s = true →
  (∀ n : nat, n ≤ length (steps v) - step s →
     isPlaying (ticks v n s) = true ∧ step (ticks v n s) = step s + n) ∧
  ∀ n : nat, length (steps v) - step s < n →
    isPlaying (ticks v n s) = false ∧
    step (ticks v n s) = length (steps v) ∧
    execution_state (ticks v n s) = ([], [], [], programOutput, stack).
Proof.
  intros Hreach Hp.
  destruct (reachable_tabulated v s Hreach) as [Hle _].
  split.
  - intros n Hn. apply ticks_playing; [done|lia].
  - intros n Hn.
    set (m := length (steps v) - step s) in *.
    replace n with (m + 1 + (n - S m)) by lia.
    rewrite !ticks_add.
    destruct (ticks_playing v m s Hp ltac:(lia)) as [Hpm Hsm].
    assert (reachable v (ticks v m s)) as Hreachm
      by (by apply reachable_run_from).
    destruct (reachable_tabulated v _ Hreachm) as [_ Htabm].
    set (sm := ticks v m s) in *.
    assert (step sm = length (steps v)) as Hend by lia.
    rewrite Hend in Htabm. apply tabulated_last in Htabm.
    assert (ticks v 1 sm = dispatch (setIsPlaying (Value false)) sm) as Hstop.
    { change (ticks v 1 sm) with (handle v TimerFires sm).
      rewrite tick_playing, timeout_callback_finished by (done || lia).
      done. }
    rewrite Hstop, ticks_paused by done. simpl.
    split; [done|]. split; [done|]. exact Htabm.
Qed.

Lemma playing_runs_to_completion_witness :
  reachable VariantB (ticks VariantB 5 (started VariantB)) ∧
  isPlaying (ticks VariantB 5 (started VariantB)) = true ∧
  (isPlaying (ticks VariantB 7 (ticks VariantB 5 (started VariantB))) = true ∧
   step (ticks VariantB 7 (ticks VariantB 5 (started VariantB)))
   = step (ticks VariantB 5 (started VariantB)) + 7) ∧
  (isPlaying (ticks VariantB 8 (ticks VariantB 5 (started VariantB))) = false ∧
   step (ticks VariantB 8 (ticks VariantB 5 (started VariantB)))
   = length (steps VariantB) ∧
   execution_state (ticks VariantB 8 (ticks VariantB 5 (started VariantB)))
   = ([], [], [], programOutput, stack)).
Proof.
  assert (reachable VariantB (ticks VariantB 5 (started VariantB))) as Hreach
    by (do 6 apply reachable_handle; apply reachable_initial).
  destruct (playing_runs_to_completion VariantB _ Hreach eq_refl)
    as [Hrun Hstop].
  split; [exact Hreach|]. split; [reflexivity|]. split.
  - apply Hrun. vm_compute; lia.
  - apply Hstop. vm_compute; lia.
Defined.

(** Pressing play on a finished replay does not start it over: the next
    tick only switches the player off again, and the component is back in
    the very state it was in before the click. *)
Theorem play_after_completion_stops_again (v : Version) (s : Visualizer) :
  length (steps v) ≤ step s → isPlaying s = false →
  isPlaying (handle v ClickPlayPause s) = true ∧
  handle v TimerFires (handle v ClickPlayPause s) = s.
Proof.
  intros Hge Hp. destruct s as [p n cs mq cq co la]. simpl in *. subst p.
  split; [done|]. unfold pending_timer. simpl.
  rewrite timeout_callback_finished by (simpl; lia). done.
Qed.

Lemma play_after_completion_stops_again_witness :
  length (steps VariantA) ≤ step stoppedA ∧
  isPlaying stoppedA = false ∧
  isPlaying (handle VariantA ClickPlayPause stoppedA) = true ∧
  handle VariantA TimerFires (handle VariantA ClickPlayPause stoppedA)
  = stoppedA.
Proof.
  split; [vm_compute; lia|]. split; [reflexivity|].
  apply (play_after_completion_stops_again VariantA stoppedA);
    [vm_compute; lia|reflexivity].
Defined.

(** Pausing, letting any number of timer intervals pass, and resuming
    brings the component back to exactly the state it was paused in: no
    tick is applied while paused, whatever the step index. *)
Theorem pause_wait_resume (v : Version) (n : nat) (s : Visualizer) :
  isPlaying s = true →
  run v (ClickPlayPause :: replicate n TimerFires) s
  = handle v ClickPlayPause s ∧
  run v (ClickPlayPause :: replicate n TimerFires ++ [ClickPlayPause]) s = s.
Proof.
  intros Hp.
  assert (run v (ClickPlayPause :: replicate n TimerFires) s
          = handle v ClickPlayPause s) as Hwait.
  { rewrite run_cons. apply (ticks_paused v n).
    destruct s; simpl in *; by subst. }
  split; [exact Hwait|].
  rewrite app_comm_cons, run_app, Hwait.
  destruct s as [p k cs mq cq co la]; simpl in *; by subst.
Qed.

Lemma pause_wait_resume_witness :
  isPlaying midwayB = true ∧
  run VariantB (ClickPlayPause :: replicate 4 TimerFires) midwayB
  = handle VariantB ClickPlayPause midwayB ∧
  run VariantB (ClickPlayPause :: replicate 4 TimerFires ++ [ClickPlayPause])
    midwayB
  = midwayB.
Proof.
  split; [reflexivity|].
  apply (pause_wait_resume VariantB 4 midwayB). reflexivity.
Defined.
